(** * Template-string resolution (garden, [src/template-string.ts])

    A shallow embedding of the template-string module: the key-path
    resolver [genericResolver], the interpolator [parseTemplateString],
    the deep resolver [resolveTemplateStrings], the context builder
    [getTemplateContext] and the parser accessor [getParser].

    Modelling conventions.
    - A JavaScript object is the finite map of its own properties
      ([gmap string _]); members inherited from the built-in prototypes
      ([toString], [constructor], ...) are not part of the model.
    - Numbers are the integers [Z]; the only falsy number represented is 0.
    - Strings are [string]; their own properties are [length] and the
      canonical indices.
    - A call either returns or throws: [Completion].  The same type is used
      for the settlement of an awaited promise (fulfilled / rejected). *)

From Stdlib Require Import ZArith String Ascii List Lia.
From stdpp Require Import base option list strings pretty gmap fin_maps.

#[local] Set Warnings "-register-all".

#[local] Open Scope string_scope.
#[local] Open Scope Z_scope.

(** ** Errors and completions *)

(** [class TemplateStringError extends Error { }]; every other error
    (thrown by a resolver function, say) is an [OtherError]. *)
Inductive JsError : Type :=
  | TemplateStringError (message : string)
  | OtherError (message : string).

Inductive Completion (A : Type) : Type :=
  | Normal (a : A)
  | Throw (e : JsError).

Arguments Normal {A} a.
Arguments Throw {A} e.

#[global] Instance completion_ret : MRet Completion := fun A a => Normal a.

#[global] Instance completion_bind : MBind Completion := fun A B k c =>
  match c with
  | Normal a => k a
  | Throw e => Throw e
  end.

(** ** Values *)

(** [type Primitive = string | number | boolean] *)
Inductive Primitive : Type :=
  | PStr (s : string)
  | PNum (n : Z)
  | PBool (b : bool).

(** A promise handed out by a resolver function: the task that settles it
    and the way it settles.  When a task settles is not decided by the
    program; it is given by a [Schedule]. *)
Record JsPromise : Type := mkPromise {
  task : nat;
  outcome : Completion string
}.

Definition Schedule : Type := nat -> nat.

(** What a [KeyResolver] returns: [Promise<string> | string]. *)
Inductive FnRet : Type :=
  | FStr (s : string)
  | FPromise (p : JsPromise).

(** [type KeyResolver = (keyParts: string[]) => Promise<string> | string] *)
Definition KeyResolver : Type := list string -> Completion FnRet.

(** An entry of a [TemplateStringContext]:
    [Primitive | KeyResolver | TemplateStringContext | undefined]. *)
Inductive JsValue : Type :=
  | VUndefined
  | VPrim (p : Primitive)
  | VFun (f : KeyResolver)
  | VObj (o : gmap string JsValue).

Abbreviation TemplateStringContext := (gmap string JsValue).

(** ** JavaScript primitives used by the module *)

Inductive JsType : Type :=
  | TyUndefined | TyString | TyNumber | TyBoolean | TyFunction | TyObject.

Definition typeof (v : JsValue) : JsType :=
  match v with
  | VUndefined => TyUndefined
  | VPrim (PStr _) => TyString
  | VPrim (PNum _) => TyNumber
  | VPrim (PBool _) => TyBoolean
  | VFun _ => TyFunction
  | VObj _ => TyObject
  end.

Definition typeof_name (t : JsType) : string :=
  match t with
  | TyUndefined => "undefined"
  | TyString => "string"
  | TyNumber => "number"
  | TyBoolean => "boolean"
  | TyFunction => "function"
  | TyObject => "object"
  end.

(** The truthiness test of [value ? ... : ...]. *)
Definition truthy (v : JsValue) : bool :=
  match v with
  | VUndefined => false
  | VPrim (PStr s) => negb (String.eqb s "")
  | VPrim (PNum n) => negb (n =? 0)
  | VPrim (PBool b) => b
  | VFun _ => true
  | VObj _ => true
  end.

(** Modelled from the spec: [isPrimitive] of [./types/common], which is not
    among the sources; a Primitive is a string, a number or a boolean. *)
Definition isPrimitive (v : JsValue) : bool :=
  match typeof v with
  | TyString | TyNumber | TyBoolean => true
  | _ => false
  end.

(** [parts.join(".")] and, with the empty separator, [resolved.join("")]. *)
Fixpoint join (sep : string) (l : list string) : string :=
  match l with
  | [] => ""
  | [x] => x
  | x :: rest => x +:+ sep +:+ join sep rest
  end.

(** Canonical array indices: ["0"], ["7"], ["12"], but not ["07"]. *)
Definition digit_of (c : ascii) : option nat :=
  let n := nat_of_ascii c in
  if (48 <=? n)%nat && (n <=? 57)%nat then Some (n - 48)%nat else None.

Fixpoint digits_value (acc : nat) (s : string) : option nat :=
  match s with
  | EmptyString => Some acc
  | String c rest =>
      match digit_of c with
      | Some d => digits_value (10 * acc + d) rest
      | None => None
      end
  end.

Definition parse_index (s : string) : option nat :=
  match s with
  | EmptyString => None
  | String "0" EmptyString => Some 0%nat
  | String "0" _ => None
  | _ => digits_value 0 s
  end.

(** [value[part]] on a string: [length] and the characters. *)
Definition string_prop (s part : string) : JsValue :=
  if String.eqb part "length" then VPrim (PNum (Z.of_nat (String.length s)))
  else match parse_index part with
       | Some i =>
           match String.get i s with
           | Some c => VPrim (PStr (String c EmptyString))
           | None => VUndefined
           end
       | None => VUndefined
       end.

(** [value[part]] for a value that passed the truthiness test. *)
Definition get_prop (v : JsValue) (part : string) : JsValue :=
  match v with
  | VObj o => default VUndefined (o !! part)
  | VPrim (PStr s) => string_prop s part
  | _ => VUndefined
  end.

(** [context[part]] *)
Definition ctx_get (context : TemplateStringContext) (part : string) : JsValue :=
  default VUndefined (context !! part).

(** ** The key-path resolver *)

(** What the callback of [genericResolver] hands back: the walked value
    ([return value]) or whatever the resolver function returned
    ([return value(parts.slice(p + 1))]). *)
Inductive Resolved : Type :=
  | Walked (v : JsValue)
  | Delegated (r : FnRet).

Definition not_found_message (path : string) : string :=
  "Could not find key: " +:+ path.

Definition not_primitive_message (path : string) : string :=
  "Value at " +:+ path +:+
  " exists but is not a primitive (string, number or boolean)".

(** [value = value ? value[part] : context[part]] *)
Definition lookup_part (context : TemplateStringContext) (value : JsValue)
    (part : string) : JsValue :=
  if truthy value then get_prop value part else ctx_get context part.

(** The [for] loop from index [p] on; [rest] is [parts.slice(p)] and
    [value] the accumulator on entry. *)
Fixpoint resolve_loop (context : TemplateStringContext) (path : string)
    (value : JsValue) (rest : list string) : Completion Resolved :=
  match rest with
  | [] =>
      if negb (isPrimitive value)
      then Throw (TemplateStringError (not_primitive_message path))
      else Normal (Walked value)
  | part :: rest' =>
      let value' := lookup_part context value part in
      match value' with
      | VFun f => r ← f rest'; Normal (Delegated r)
      | VUndefined => Throw (TemplateStringError (not_found_message path))
      | _ => resolve_loop context path value' rest'
      end
  end.

Definition genericResolver (context : TemplateStringContext)
    (parts : list string) : Completion Resolved :=
  resolve_loop context (join "." parts) VUndefined parts.

(** The accumulator after the loop has gone through [pre] without meeting
    a function or a missing value. *)
Fixpoint walk (context : TemplateStringContext) (value : JsValue)
    (pre : list string) : option JsValue :=
  match pre with
  | [] => Some value
  | part :: pre' =>
      let value' := lookup_part context value part in
      match value' with
      | VFun _ | VUndefined => None
      | _ => walk context value' pre'
      end
  end.

(** [hay.includes(needle)] *)
Fixpoint is_substring (needle hay : string) : bool :=
  String.prefix needle hay ||
  match hay with
  | EmptyString => false
  | String _ rest => is_substring needle rest
  end.

(** ** The parser front-end *)

(** An element of the array [parser.parse] returns: literal text, or what
    [getKey] returned for an expression. *)
Inductive Item : Type :=
  | ILit (text : string)
  | IKey (r : Resolved).

Definition GetKey : Type := list string -> Completion Resolved.

(** A parser object; [parse] is its only member used here
    ([parser.parse(string, { getKey, TemplateStringError })]). *)
Record Parser : Type := mkParser {
  parse : string -> GetKey -> Completion (list Item)
}.

Inductive Segment : Type :=
  | Lit (text : string)
  | Expr (parts : list string).

Definition is_ident_char (c : ascii) : bool :=
  let n := nat_of_ascii c in
  ((97 <=? n) && (n <=? 122) || (65 <=? n) && (n <=? 90) ||
   (48 <=? n) && (n <=? 57) || (n =? 95) || (n =? 45))%nat.

Inductive LexMode : Type :=
  | InText (text : string)
  | InExpr (parts : list string) (ident : string).

Definition lit_segment (text : string) : list Segment :=
  if String.eqb text "" then [] else [Lit text].

Definition snoc_char (s : string) (c : ascii) : string :=
  s +:+ String c EmptyString.

(** Modelled from the spec: the grammar [template-string.pegjs] is not among
    the sources.  Literal text interleaved with
    [${identifier(.identifier)*}] expressions; a malformed expression
    (empty identifier, foreign character, missing closing brace) is a
    syntax error, [None].  Identifiers are taken to be runs of letters,
    digits, [_] and [-]. *)
Fixpoint scan (mode : LexMode) (s : string) : option (list Segment) :=
  match mode, s with
  | InText text, EmptyString => Some (lit_segment text)
  | InText text, String c rest =>
      match rest with
      | String c' rest' =>
          if Ascii.eqb c "$" && Ascii.eqb c' "{"
          then segs ← scan (InExpr [] "") rest'; Some (lit_segment text ++ segs)%list
          else scan (InText (snoc_char text c)) rest
      | EmptyString => scan (InText (snoc_char text c)) rest
      end
  | InExpr parts ident, EmptyString => None
  | InExpr parts ident, String c rest =>
      if Ascii.eqb c "}" then
        if String.eqb ident "" then None
        else segs ← scan (InText "") rest; Some (Expr (parts ++ [ident])%list :: segs)
      else if Ascii.eqb c "." then
        if String.eqb ident "" then None
        else scan (InExpr (parts ++ [ident])%list "") rest
      else if is_ident_char c then scan (InExpr parts (snoc_char ident c)) rest
      else None
  end.

Definition tokenize (s : string) : option (list Segment) :=
  scan (InText "") s.

(** Each expression is evaluated by [getKey], in source order; the first
    call that throws ends the parse. *)
Definition eval_segment (getKey : GetKey) (seg : Segment) : Completion Item :=
  match seg with
  | Lit text => Normal (ILit text)
  | Expr parts => r ← getKey parts; Normal (IKey r)
  end.

Definition syntax_error (s : string) : JsError :=
  TemplateStringError ("Invalid template string: " +:+ s).

(** Modelled from the spec: the parser front-end.  It tokenizes the
    template, raises a parser-level error built with the supplied error
    constructor on malformed input, and otherwise returns the ordered
    sequence of literals and [getKey] results. *)
Definition pegParser : Parser :=
  {| parse := fun s getKey =>
       match tokenize s with
       | None => Throw (syntax_error s)
       | Some segs => mapM (eval_segment getKey) segs
       end |}.

(** ** The interpolator *)

(** The value an array element settles to, once awaited. *)
Definition settle (it : Item) : Completion JsValue :=
  match it with
  | ILit text => Normal (VPrim (PStr text))
  | IKey (Walked v) => Normal v
  | IKey (Delegated (FStr s)) => Normal (VPrim (PStr s))
  | IKey (Delegated (FPromise p)) => s ← outcome p; Normal (VPrim (PStr s))
  end.

(** An element that is a rejecting promise: when it rejects, and why. *)
Definition rejection (sched : Schedule) (it : Item) : option (nat * JsError) :=
  match it with
  | IKey (Delegated (FPromise p)) =>
      match outcome p with
      | Throw e => Some (sched (task p), e)
      | Normal _ => None
      end
  | _ => None
  end.

(** The rejection that happens first; among rejections of the same instant
    the one of the earlier element. *)
Fixpoint earliest_rejection (sched : Schedule) (items : list Item)
  : option (nat * JsError) :=
  match items with
  | [] => None
  | it :: rest =>
      match rejection sched it, earliest_rejection sched rest with
      | Some (t, e), Some (t', e') =>
          if (t' <? t)%nat then Some (t', e') else Some (t, e)
      | Some r, None => Some r
      | None, r => r
      end
  end.

(** [Bluebird.all(parsed)], awaited: rejected with the reason of the first
    element to reject, else fulfilled with the settled values in order. *)
Definition Bluebird_all (sched : Schedule) (items : list Item)
  : Completion (list JsValue) :=
  match earliest_rejection sched items with
  | Some (_, e) => Throw e
  | None => mapM settle items
  end.

(** The string conversion [Array.prototype.join] applies to an element.
    The source text of a function is not modelled. *)
Definition to_string (v : JsValue) : string :=
  match v with
  | VUndefined => ""
  | VPrim (PStr s) => s
  | VPrim (PNum n) => pretty n
  | VPrim (PBool true) => "true"
  | VPrim (PBool false) => "false"
  | VFun _ => "function"
  | VObj _ => "[object Object]"
  end.

(** [parseTemplateString], awaited; [parser] is the value of
    [getParser()]. *)
Definition parseTemplateString (parser : Parser) (sched : Schedule)
    (template : string) (context : TemplateStringContext) : Completion string :=
  parsed ← parse parser template (genericResolver context);
  resolved ← Bluebird_all sched parsed;
  Normal (join "" (to_string <$> resolved)).

(** ** The deep resolver *)

(** The leaves of configuration data. *)
Inductive Scalar : Type :=
  | SNull
  | SBool (b : bool)
  | SNum (n : Z)
  | SStr (s : string).

(** Arrays and plain objects over leaves of type [L]; an object lists its
    fields in insertion order. *)
Inductive Tree (L : Type) : Type :=
  | Leaf (l : L)
  | Arr (items : list (Tree L))
  | Obj (fields : list (string * Tree L)).

Arguments Leaf {L} l.
Arguments Arr {L} items.
Arguments Obj {L} fields.

(** [deepMap(o, fn)] of the [deep-map] package: [fn] applied to every leaf,
    arrays and objects rebuilt around the results. *)
Fixpoint deepMap {A B : Type} (fn : A -> B) (o : Tree A) : Tree B :=
  match o with
  | Leaf v => Leaf (fn v)
  | Arr items => Arr (deepMap fn <$> items)
  | Obj fields => Obj ((fun '(k, v) => (k, deepMap fn v)) <$> fields)
  end.

(** A leaf after mapping: left as it was, or the promise an interpolation
    returned (given by the way it settles). *)
Inductive MappedLeaf : Type :=
  | Plain (v : Scalar)
  | Promised (p : Completion string).

(** [(v) => typeof v === "string" ? parseTemplateString(v, context) : v] *)
Definition resolve_leaf (parser : Parser) (sched : Schedule)
    (context : TemplateStringContext) (v : Scalar) : MappedLeaf :=
  match v with
  | SStr s => Promised (parseTemplateString parser sched s context)
  | _ => Plain v
  end.

Definition await_leaf (l : MappedLeaf) : Completion Scalar :=
  match l with
  | Plain v => Normal v
  | Promised p => s ← p; Normal (SStr s)
  end.

(** Modelled from the spec: [deepResolve] of [./util], which is not among
    the sources.  It resolves all pending leaves and rebuilds a tree of the
    same shape; when leaves fail, the error is that of the first failing
    leaf in structural order. *)
Fixpoint deepResolve (t : Tree MappedLeaf) : Completion (Tree Scalar) :=
  match t with
  | Leaf l => v ← await_leaf l; Normal (Leaf v)
  | Arr items => items' ← mapM deepResolve items; Normal (Arr items')
  | Obj fields =>
      fields' ← mapM (fun '(k, v) => v' ← deepResolve v; Normal (k, v')) fields;
      Normal (Obj fields')
  end.

(** [resolveTemplateStrings], awaited. *)
Definition resolveTemplateStrings (parser : Parser) (sched : Schedule)
    (o : Tree Scalar) (context : TemplateStringContext)
  : Completion (Tree Scalar) :=
  let mapped := deepMap (resolve_leaf parser sched context) o in
  deepResolve mapped.

(** ** The context builder *)

(** [process.env] as a context value. *)
Definition env_value (process_env : gmap string string) : JsValue :=
  VObj ((fun s => VPrim (PStr s)) <$> process_env).

(** [getTemplateContext]; [None] is a call without argument, for which the
    default [{}] is taken.  The spread [{ ...baseContext, ...extraContext }]
    copies the own properties of the base, then those of the extra context
    over them. *)
Definition getTemplateContext (process_env : gmap string string)
    (extraContext : option TemplateStringContext) : TemplateStringContext :=
  let extraContext := default ∅ extraContext in
  let baseContext : TemplateStringContext :=
    {[ "env" := env_value process_env ]} in
  extraContext ∪ baseContext.

(** ** The parser accessor *)

(** A parser object in memory: its address and its contents. *)
Record ParserRef : Type := mkRef {
  address : nat;
  object : Parser
}.

(** What the process finds when it has to build the parser: the
    precompiled module ([require("./template-string-parser")]) if it
    loads, and what generating from the grammar file gives otherwise. *)
Record Loader : Type := mkLoader {
  precompiled : option Parser;
  generated : Completion Parser
}.

(** The module variable [_parser] ([None] is [undefined]), and the number
    of parser objects built so far. *)
Record ModuleState : Type := mkState {
  _parser : option ParserRef;
  built : nat
}.

Definition initial_state : ModuleState :=
  {| _parser := None; built := 0 |}.

(** The body of [if (!_parser) { ... }]. *)
Definition construct (env : Loader) : Completion Parser :=
  match precompiled env with
  | Some p => Normal p
  | None => generated env
  end.

Definition getParser (env : Loader) (m : ModuleState)
  : Completion ParserRef * ModuleState :=
  match _parser m with
  | Some p => (Normal p, m)
  | None =>
      match construct env with
      | Normal obj =>
          let p := {| address := built m; object := obj |} in
          (Normal p, {| _parser := Some p; built := S (built m) |})
      | Throw e => (Throw e, m)
      end
  end.

(** A sequence of calls, each in the environment it finds. *)
Fixpoint getParser_calls (envs : list Loader) (m : ModuleState)
  : list (Completion ParserRef) * ModuleState :=
  match envs with
  | [] => ([], m)
  | env :: envs' =>
      let '(r, m') := getParser env m in
      let '(rs, m'') := getParser_calls envs' m' in
      (r :: rs, m'')
  end.

(** [parseTemplateString] as a step of the process: it fetches the parser,
    then interpolates with it. *)
Definition parseTemplateString_call (env : Loader) (sched : Schedule)
    (template : string) (context : TemplateStringContext) (m : ModuleState)
  : Completion string * ModuleState :=
  let '(r, m') := getParser env m in
  (p ← r; parseTemplateString (object p) sched template context, m').

(** ** Notions used to state the properties *)

(** The template holds the opening [${] of an expression. *)
Fixpoint has_format_start (s : string) : bool :=
  match s with
  | EmptyString => false
  | String c rest =>
      match rest with
      | String c' _ =>
          (Ascii.eqb c "$" && Ascii.eqb c' "{") || has_format_start rest
      | EmptyString => false
      end
  end.

(** The text a segment contributes to the output: a literal its own text,
    an expression the text of the value its key path resolves to. *)
Inductive segment_value (context : TemplateStringContext)
  : Segment -> string -> Prop :=
  | sv_literal text :
      segment_value context (Lit text) text
  | sv_walked parts v :
      genericResolver context parts = Normal (Walked v) ->
      segment_value context (Expr parts) (to_string v)
  | sv_returned parts s :
      genericResolver context parts = Normal (Delegated (FStr s)) ->
      segment_value context (Expr parts) s
  | sv_awaited parts p s :
      genericResolver context parts = Normal (Delegated (FPromise p)) ->
      outcome p = Normal s ->
      segment_value context (Expr parts) s.

(** The first failure in a sequence of results. *)
Fixpoint first_error {A : Type} (results : list (Completion A))
  : option JsError :=
  match results with
  | [] => None
  | Normal _ :: rest => first_error rest
  | Throw e :: _ => Some e
  end.

(** The leaves of a tree, in structural order. *)
Fixpoint leaves {L : Type} (t : Tree L) : list L :=
  match t with
  | Leaf l => [l]
  | Arr items => concat (leaves <$> items)
  | Obj fields => concat ((fun '(_, v) => leaves v) <$> fields)
  end.

(** What a leaf becomes, once mapped and awaited. *)
Definition leaf_result (parser : Parser) (sched : Schedule)
    (context : TemplateStringContext) (v : Scalar) : Completion Scalar :=
  await_leaf (resolve_leaf parser sched context v).

(** [o'] mirrors [o]: the same arrays, in length and order, the same
    objects, field by field under the same keys, every string leaf
    replaced by its interpolation and every other leaf kept. *)
Inductive mirrors (parser : Parser) (sched : Schedule)
    (context : TemplateStringContext) : Tree Scalar -> Tree Scalar -> Prop :=
  | mirrors_null :
      mirrors parser sched context (Leaf SNull) (Leaf SNull)
  | mirrors_bool b :
      mirrors parser sched context (Leaf (SBool b)) (Leaf (SBool b))
  | mirrors_num n :
      mirrors parser sched context (Leaf (SNum n)) (Leaf (SNum n))
  | mirrors_str s s' :
      parseTemplateString parser sched s context = Normal s' ->
      mirrors parser sched context (Leaf (SStr s)) (Leaf (SStr s'))
  | mirrors_arr items items' :
      Forall2 (mirrors parser sched context) items items' ->
      mirrors parser sched context (Arr items) (Arr items')
  | mirrors_obj fields fields' :
      Forall2 (fun kv kv' =>
                 kv.1 = kv'.1 /\ mirrors parser sched context kv.2 kv'.2)
              fields fields' ->
      mirrors parser sched context (Obj fields) (Obj fields').

(** The object reached from [o] through [keys], each key naming a nested
    object of the one before. *)
Fixpoint descend (o : gmap string JsValue) (keys : list string)
  : option (gmap string JsValue) :=
  match keys with
  | [] => Some o
  | key :: keys' =>
      match o !! key with
      | Some (VObj o') => descend o' keys'
      | _ => None
      end
  end.

(** The accumulator [value] reads its parts in the object [o]: it is
    unset and [o] is the context, or it is the object [o] itself. *)
Definition reads_in (context : TemplateStringContext) (value : JsValue)
    (o : gmap string JsValue) : Prop :=
  (value = VUndefined /\ o = context) \/ value = VObj o.

(** [typeof v === "string"] on a leaf. *)
Definition is_string (v : Scalar) : bool :=
  match v with
  | SStr _ => true
  | _ => false
  end.

(** ** Sample inputs *)

(** The context [{ a: 0, b: "x" }]. *)
Definition falsy_context : TemplateStringContext :=
  {[ "a" := VPrim (PNum 0); "b" := VPrim (PStr "x") ]}.

(** The context [{ cfg: { a: 1 } }]. *)
Definition nested_context : TemplateStringContext :=
  {[ "cfg" := VObj {[ "a" := VPrim (PNum 1) ]} ]}.

(** The context [{ env: f, FOO: "top" }], [f] answering with the joined
    remaining parts. *)
Definition echo_context : TemplateStringContext :=
  {[ "env" := VFun (fun rest => Normal (FStr (join "." rest)));
     "FOO" := VPrim (PStr "top") ]}.

(** A resolver function whose promise is rejected. *)
Definition failing_promise (t : nat) (reason : string) : KeyResolver :=
  fun _ =>
    Normal (FPromise {| task := t; outcome := Throw (OtherError reason) |}).

(** The context [{ a: f, b: g }], both functions returning a promise that
    is rejected. *)
Definition racing_context : TemplateStringContext :=
  {[ "a" := VFun (failing_promise 0 "a failed");
     "b" := VFun (failing_promise 1 "b failed") ]}.

Definition a_settles_first : Schedule := fun t => t.
Definition b_settles_first : Schedule := fun t => (1 - t)%nat.

(** The environment in which the precompiled parser loads. *)
Definition precompiled_env : Loader :=
  {| precompiled := Some pegParser;
     generated := Throw (OtherError "Cannot find module 'pegjs'") |}.

(** The environment in which nothing loads. *)
Definition broken_env : Loader :=
  {| precompiled := None;
     generated := Throw (OtherError "Cannot find module 'pegjs'") |}.

(** * Properties of the key-path resolver *)

Section KeyPathResolver.

Context (context : TemplateStringContext).



Lemma lookup_part_falsy (value : JsValue) (part : string) :
  truthy value = false ->
  lookup_part context value part = ctx_get context part.
Proof. intros Ht. unfold lookup_part. now rewrite Ht. Qed.

(** The loop resumes from the accumulator reached after a prefix. *)
Lemma resolve_loop_app (path : string) (pre rest : list string) :
  forall value acc,
    walk context value pre = Some acc ->
    resolve_loop context path value (pre ++ rest)
    = resolve_loop context path acc rest.
Proof.
  induction pre as [|part pre IH]; intros value acc Hw; simpl in *.
  - now inversion Hw.
  - destruct (lookup_part context value part) eqn:E;
      try discriminate; now apply IH.
Qed.

(** A walk never stops on [undefined] or on a function. *)
Lemma walk_cons_kind (pre : list string) :
  forall value acc part,
    walk context value (part :: pre) = Some acc ->
    typeof acc <> TyUndefined /\ typeof acc <> TyFunction.
Proof.
  induction pre as [|q pre IH]; intros value acc part Hw.
  - simpl in Hw. destruct (lookup_part context value part) eqn:E;
      inversion Hw; subst; split; try discriminate; destruct p; discriminate.
  - simpl in Hw. destruct (lookup_part context value part) eqn:E;
      try discriminate; eapply IH; exact Hw.
Qed.


Lemma resolve_loop_delegated (path : string) (rest : list string) :
  forall value r,
    resolve_loop context path value rest = Normal (Delegated r) ->
    exists pre part post acc f,
      rest = (pre ++ part :: post)%list /\
      walk context value pre = Some acc /\
      lookup_part context acc part = VFun f /\
      f post = Normal r.
Proof.
  induction rest as [|part rest IH]; intros value r H; simpl in H.
  - destruct (negb (isPrimitive value)); discriminate.
  - destruct (lookup_part context value part) eqn:E.
    + discriminate.
    + destruct (IH _ _ H) as (pre & q & post & acc & f & -> & Hw & Hl & Hf).
      exists (part :: pre), q, post, acc, f. simpl. rewrite E.
      repeat split; assumption.
    + exists [], part, rest, value, f. simpl.
      destruct (f rest) eqn:Ef; simpl in H; inversion H; subst.
      repeat split; assumption.
    + destruct (IH _ _ H) as (pre & q & post & acc & f & -> & Hw & Hl & Hf).
      exists (part :: pre), q, post, acc, f. simpl. rewrite E.
      repeat split; assumption.
Qed.

Lemma resolve_loop_walked (path : string) (rest : list string) :
  forall value v,
    resolve_loop context path value rest = Normal (Walked v) ->
    walk context value rest = Some v /\ isPrimitive v = true.
Proof.
  induction rest as [|part rest IH]; intros value v H; simpl in H |- *.
  - destruct (isPrimitive value) eqn:E; simpl in H; inversion H; subst.
    now split.
  - destruct (lookup_part context value part) eqn:E; try discriminate.
    + now apply IH.
    + destruct (f rest); discriminate.
    + now apply IH.
Qed.

End KeyPathResolver.

(** ** Claims on the key-path resolver *)

(** C1, at the path [a.b] in [{ a: 0, b: "x" }]: after the first part the
    accumulator is set, to the number 0, which has no field [b]; the
    resolver nevertheless looks [b] up in the top-level context and
    returns ["x"], where a lookup in the accumulator alone fails with the
    not-found error for [a.b]. *)
Theorem genericResolver_falsy_accumulator_falls_back :
  walk falsy_context VUndefined ["a"] = Some (VPrim (PNum 0)) /\
  get_prop (VPrim (PNum 0)) "b" = VUndefined /\
  lookup_part falsy_context (VPrim (PNum 0)) "b" = VPrim (PStr "x") /\
  genericResolver falsy_context ["a"; "b"] = Normal (Walked (VPrim (PStr "x"))) /\
  genericResolver falsy_context ["a"; "b"]
  <> Throw (TemplateStringError (not_found_message "a.b")).
Proof. repeat split; try reflexivity. discriminate. Qed.

(** C2 as stated fails: at the path [cfg] in [{ cfg: { a: 1 } }] the
    walked value is an object and the error raised names the path but not
    the kind of the value; and the error raised for the empty path, where
    the value is [undefined], is the very error raised for the path [[""]]
    when it leads to an object. *)
Lemma genericResolver_error_omits_kind :
  typeof (ctx_get nested_context "cfg") = TyObject /\
  genericResolver nested_context ["cfg"]
  = Throw (TemplateStringError
      "Value at cfg exists but is not a primitive (string, number or boolean)") /\
  is_substring (typeof_name TyObject)
      "Value at cfg exists but is not a primitive (string, number or boolean)"
  = false /\
  walk ∅ VUndefined [] = Some VUndefined /\
  walk {[ "" := VObj ∅ ]} VUndefined [""] = Some (VObj ∅) /\
  genericResolver ∅ [] = genericResolver {[ "" := VObj ∅ ]} [""].
Proof. repeat split; reflexivity. Qed.

(** C2, amended: a value the resolver returns from its own walk is a
    Primitive; what a resolver function returned is handed back as it is;
    and when the fully-walked value is not a Primitive the call fails with
    a TemplateStringError whose message holds the full dotted path, and
    nothing about the value. *)
Theorem genericResolver_returns_primitive
    (context : TemplateStringContext) (parts : list string) :
  (forall v, genericResolver context parts = Normal (Walked v) ->
     isPrimitive v = true) /\
  (forall r, genericResolver context parts = Normal (Delegated r) ->
     exists pre part post acc f,
       parts = (pre ++ part :: post)%list /\
       walk context VUndefined pre = Some acc /\
       lookup_part context acc part = VFun f /\
       f post = Normal r) /\
  (forall v, walk context VUndefined parts = Some v ->
     isPrimitive v = false ->
     genericResolver context parts
     = Throw (TemplateStringError
         ("Value at " +:+ join "." parts +:+
          " exists but is not a primitive (string, number or boolean)"))).
Proof.
  unfold genericResolver. split; [|split].
  - intros v H. now apply resolve_loop_walked in H.
  - intros r H. now apply resolve_loop_delegated in H.
  - intros v Hw Hp.
    rewrite <- (app_nil_r parts) at 2.
    rewrite (resolve_loop_app _ _ parts [] _ _ Hw). simpl.
    now rewrite Hp.
Qed.

Lemma genericResolver_returns_primitive_witness :
  isPrimitive (VPrim (PStr "x")) = true /\
  genericResolver nested_context ["cfg"]
  = Throw (TemplateStringError
      ("Value at " +:+ join "." ["cfg"] +:+
       " exists but is not a primitive (string, number or boolean)")).
Proof.
  split.
  - exact (proj1 (genericResolver_returns_primitive falsy_context ["a"; "b"])
             (VPrim (PStr "x")) eq_refl).
  - exact (proj2 (proj2 (genericResolver_returns_primitive nested_context
                           ["cfg"]))
             (VObj {[ "a" := VPrim (PNum 1) ]}) eq_refl eq_refl).
Defined.

(** C3: when the value looked up at index [i] is a resolver function, the
    call is the call of that function on [parts.slice(i + 1)], whatever
    the parts after [i] and the rest of the context are. *)
Theorem genericResolver_defers_to_function
    (context : TemplateStringContext) (parts : list string) (i : nat)
    (part : string) (acc : JsValue) (f : KeyResolver) :
  parts !! i = Some part ->
  walk context VUndefined (take i parts) = Some acc ->
  lookup_part context acc part = VFun f ->
  genericResolver context parts
  = (r ← f (drop (S i) parts); Normal (Delegated r)).
Proof.
  intros Hi Hw Hl. unfold genericResolver.
  generalize (join "." parts). intros path.
  rewrite <- (take_drop_middle parts i part Hi) at 1.
  rewrite (resolve_loop_app _ _ _ _ _ _ Hw). simpl. now rewrite Hl.
Qed.

Lemma genericResolver_defers_to_function_witness :
  genericResolver echo_context ["env"; "FOO"; "BAR"]
  = Normal (Delegated (FStr "FOO.BAR")).
Proof.
  exact (genericResolver_defers_to_function echo_context
           ["env"; "FOO"; "BAR"] 0 "env" VUndefined
           (fun rest => Normal (FStr (join "." rest)))
           eq_refl eq_refl eq_refl).
Defined.

(** C10: on the empty list of parts the callback throws the
    TemplateStringError of the non-primitive kind, with the empty path,
    for every context; it returns no value and never throws the
    not-found error. *)
Theorem genericResolver_empty_parts (context : TemplateStringContext) :
  genericResolver context []
  = Throw (TemplateStringError
      "Value at  exists but is not a primitive (string, number or boolean)") /\
  (forall r, genericResolver context [] <> Normal r) /\
  (forall path,
     genericResolver context []
     <> Throw (TemplateStringError (not_found_message path))).
Proof.
  split; [reflexivity|]. split; intros; discriminate.
Qed.

(** * Sequencing of calls that may throw *)

Section Sequencing.

Context {A B : Type} (f : A -> Completion B).

Lemma mapM_cons (x : A) (l : list A) :
  mapM f (x :: l) = (y ← f x; k ← mapM f l; Normal (y :: k)).
Proof. reflexivity. Qed.

Lemma mapM_Normal (l : list A) :
  forall l', mapM f l = Normal l' <-> Forall2 (fun x y => f x = Normal y) l l'.
Proof.
  induction l as [|x l IH]; intros l'.
  - split.
    + intros H. inversion H. constructor.
    + intros H. inversion H. reflexivity.
  - rewrite mapM_cons. split.
    + intros H. destruct (f x) as [y|e] eqn:Ex; [|discriminate].
      simpl in H. destruct (mapM f l) as [k|e] eqn:El; [|discriminate].
      inversion H; subst. constructor; [assumption|]. now apply IH.
    + intros H. inversion H as [|x0 y l0 k Hy Hk]; subst.
      rewrite Hy. simpl. apply IH in Hk. now rewrite Hk.
Qed.

(** [mapM] fails exactly with the first failure, in list order. *)
Lemma mapM_Throw (l : list A) (e : JsError) :
  mapM f l = Throw e <-> first_error (f <$> l) = Some e.
Proof.
  induction l as [|x l IH].
  - split; discriminate.
  - rewrite mapM_cons, fmap_cons. simpl.
    destruct (f x) as [y|e'] eqn:Ex; simpl.
    + rewrite <- IH. destruct (mapM f l); simpl; split; congruence.
    + split; congruence.
Qed.

Lemma mapM_no_error (l : list A) :
  first_error (f <$> l) = None -> exists l', mapM f l = Normal l'.
Proof.
  intros H. destruct (mapM f l) as [l'|e] eqn:E; [now exists l'|].
  apply mapM_Throw in E. congruence.
Qed.

End Sequencing.

(** The first failure is a failure, and everything before it succeeded. *)
Lemma first_error_split {A : Type} (results : list (Completion A))
    (e : JsError) :
  first_error results = Some e <->
  exists pre post,
    results = (pre ++ Throw e :: post)%list /\
    Forall (fun r => exists a, r = Normal a) pre.
Proof.
  induction results as [|r results IH]; simpl.
  - split; [discriminate|]. intros (pre & post & H & _).
    destruct pre; discriminate.
  - destruct r as [a|e'].
    + rewrite IH. split.
      * intros (pre & post & -> & Hpre).
        exists (Normal a :: pre), post. split; [reflexivity|].
        constructor; eauto.
      * intros (pre & post & H & Hpre). destruct pre as [|r pre].
        -- discriminate.
        -- inversion H; subst. inversion Hpre; subst. eauto.
    + split.
      * intros H. inversion H; subst. exists [], results.
        split; [reflexivity|constructor].
      * intros (pre & post & H & Hpre). destruct pre as [|r pre].
        -- now inversion H.
        -- inversion H; subst. inversion Hpre as [|? ? [a Ha]]. discriminate.
Qed.

Lemma first_error_elem {A : Type} (results : list (Completion A))
    (e : JsError) :
  Throw e ∈ results -> exists e', first_error results = Some e'.
Proof.
  induction results as [|r results IH]; intros H.
  - inversion H.
  - destruct r as [a|e']; simpl; [|eauto].
    apply IH. apply elem_of_cons in H as [H|H]; [discriminate|assumption].
Qed.

(** * Properties of the interpolator *)

Lemma append_nil_r (s : string) : s +:+ "" = s.
Proof.
  induction s as [|c s IH]; [reflexivity|].
  change (String c (s +:+ "") = String c s). now f_equal.
Qed.

Lemma append_assoc (s1 s2 s3 : string) :
  (s1 +:+ s2) +:+ s3 = s1 +:+ (s2 +:+ s3).
Proof.
  induction s1 as [|c s1 IH]; [reflexivity|].
  change (String c ((s1 +:+ s2) +:+ s3) = String c (s1 +:+ (s2 +:+ s3))).
  now f_equal.
Qed.

Lemma snoc_char_append (text : string) (c : ascii) (rest : string) :
  snoc_char text c +:+ rest = text +:+ String c rest.
Proof. unfold snoc_char. now rewrite append_assoc. Qed.

(** With the empty separator [join] is plain concatenation. *)
Lemma join_empty_separator (l : list string) :
  join "" l = foldr String.append "" l.
Proof.
  induction l as [|x l IH]; [reflexivity|].
  cbn [foldr]. rewrite <- IH. destruct l as [|y l].
  - cbn. now rewrite append_nil_r.
  - reflexivity.
Qed.

Section Settlement.

Context (sched : Schedule).

Lemma settle_rejection (it : Item) :
  match settle it with
  | Normal _ => rejection sched it = None
  | Throw e => exists t, rejection sched it = Some (t, e)
  end.
Proof.
  destruct it as [text|[v|[s|p]]]; simpl; try reflexivity.
  destruct (outcome p) as [s|e]; simpl; eauto.
Qed.

Lemma earliest_rejection_None (items : list Item) :
  earliest_rejection sched items = None <->
  Forall (fun it => rejection sched it = None) items.
Proof.
  induction items as [|it items IH]; simpl.
  - split; [constructor|reflexivity].
  - destruct (rejection sched it) as [[t e]|] eqn:Er.
    + split.
      * destruct (earliest_rejection sched items) as [[t' e']|];
          [destruct (t' <? t)%nat|]; discriminate.
      * intros H. inversion H; subst. congruence.
    + rewrite IH. split.
      * intros H. now constructor.
      * intros H. now inversion H.
Qed.

(** The rejection reported is one of the rejections, and none comes
    before it. *)
Lemma earliest_rejection_Some (items : list Item) :
  forall t e,
    earliest_rejection sched items = Some (t, e) ->
    (exists it, it ∈ items /\ rejection sched it = Some (t, e)) /\
    (forall it' t' e',
       it' ∈ items -> rejection sched it' = Some (t', e') -> (t <= t')%nat).
Proof.
  induction items as [|it items IH]; intros t e H; simpl in H.
  - discriminate.
  - destruct (rejection sched it) as [[t0 e0]|] eqn:Er.
    + destruct (earliest_rejection sched items) as [[t1 e1]|] eqn:Ee.
      * destruct (IH _ _ eq_refl) as [(it1 & Hin & Hr) Hmin].
        destruct (t1 <? t0)%nat eqn:Hlt; inversion H; subst.
        -- apply Nat.ltb_lt in Hlt. split.
           ++ exists it1. split; [now apply elem_of_cons; right|assumption].
           ++ intros it' t' e' Hin' Hr'.
              apply elem_of_cons in Hin' as [->|Hin'].
              ** rewrite Er in Hr'. inversion Hr'; subst. lia.
              ** eapply Hmin; eassumption.
        -- apply Nat.ltb_ge in Hlt. split.
           ++ exists it. split; [now apply elem_of_cons; left|assumption].
           ++ intros it' t' e' Hin' Hr'.
              apply elem_of_cons in Hin' as [->|Hin'].
              ** rewrite Er in Hr'. inversion Hr'; subst. lia.
              ** specialize (Hmin _ _ _ Hin' Hr'). lia.
      * inversion H; subst. split.
        -- exists it. split; [now apply elem_of_cons; left|assumption].
        -- intros it' t' e' Hin' Hr'.
           apply elem_of_cons in Hin' as [->|Hin'].
           ++ rewrite Er in Hr'. inversion Hr'; subst. lia.
           ++ apply earliest_rejection_None in Ee.
              rewrite Forall_forall in Ee. rewrite (Ee _ Hin') in Hr'.
              discriminate.
    + destruct (IH _ _ H) as [(it1 & Hin & Hr) Hmin]. split.
      * exists it1. split; [now apply elem_of_cons; right|assumption].
      * intros it' t' e' Hin' Hr'.
        apply elem_of_cons in Hin' as [->|Hin'].
        -- congruence.
        -- eapply Hmin; eassumption.
Qed.

(** [Bluebird.all] is fulfilled exactly when every element is, with the
    settled values in order. *)
Lemma Bluebird_all_Normal (items : list Item) (vals : list JsValue) :
  Bluebird_all sched items = Normal vals <->
  Forall2 (fun it v => settle it = Normal v) items vals.
Proof.
  unfold Bluebird_all. rewrite <- mapM_Normal.
  destruct (earliest_rejection sched items) as [[t e]|] eqn:Ee; [|reflexivity].
  split; [discriminate|]. intros H. exfalso.
  apply earliest_rejection_Some in Ee as [(it & Hin & Hr) _].
  apply mapM_Normal in H.
  apply list_elem_of_lookup in Hin as [i Hi].
  destruct (Forall2_lookup_l _ _ _ _ _ H Hi) as (v & _ & Hv).
  pose proof (settle_rejection it) as Hs. rewrite Hv in Hs. congruence.
Qed.

(** It is rejected exactly when some element rejects, with the reason of
    the earliest rejection. *)
Lemma Bluebird_all_Throw (items : list Item) (e : JsError) :
  Bluebird_all sched items = Throw e <->
  exists t, earliest_rejection sched items = Some (t, e).
Proof.
  unfold Bluebird_all.
  destruct (earliest_rejection sched items) as [[t e']|] eqn:Ee.
  - split.
    + intros H. inversion H; subst. eauto.
    + intros [t' H]. inversion H; subst. reflexivity.
  - split; [|intros [t H]; discriminate].
    intros H. exfalso. apply mapM_Throw in H.
    apply first_error_split in H as (pre & post & Hs & _).
    assert (Hin : Throw e ∈ settle <$> items).
    { rewrite Hs. apply elem_of_app. right. apply elem_of_cons. now left. }
    apply list_elem_of_fmap in Hin as (it & He & Hin).
    apply earliest_rejection_None in Ee. rewrite Forall_forall in Ee.
    pose proof (settle_rejection it) as Hr. rewrite <- He in Hr.
    destruct Hr as [t Hr]. rewrite (Ee _ Hin) in Hr. discriminate.
Qed.

End Settlement.

Lemma scan_text_cons (text : string) (c c' : ascii) (rest' : string) :
  scan (InText text) (String c (String c' rest'))
  = if Ascii.eqb c "$" && Ascii.eqb c' "{"
    then segs ← scan (InExpr [] "") rest'; Some (lit_segment text ++ segs)%list
    else scan (InText (snoc_char text c)) (String c' rest').
Proof. reflexivity. Qed.

(** Text without [${] is one literal. *)
Lemma scan_plain_text (s : string) :
  has_format_start s = false ->
  forall text, scan (InText text) s = Some (lit_segment (text +:+ s)).
Proof.
  induction s as [|c rest IH]; intros Hs text.
  - now rewrite append_nil_r.
  - destruct rest as [|c' rest'].
    + reflexivity.
    + cbn [has_format_start] in Hs. apply orb_false_elim in Hs as [Hc Hs].
      rewrite scan_text_cons, Hc, (IH Hs). now rewrite snoc_char_append.
Qed.

Lemma tokenize_plain_text (s : string) :
  has_format_start s = false -> tokenize s = Some (lit_segment s).
Proof. intros Hs. unfold tokenize. now rewrite (scan_plain_text s Hs). Qed.

Lemma segment_values (sched : Schedule) (context : TemplateStringContext)
    (segs : list Segment) :
  forall items vals,
    Forall2 (fun seg it =>
               eval_segment (genericResolver context) seg = Normal it)
            segs items ->
    Forall2 (fun it v => settle it = Normal v) items vals ->
    Forall2 (segment_value context) segs (to_string <$> vals).
Proof.
  induction segs as [|seg segs IH]; intros items vals Hev Hst.
  - inversion Hev; subst. inversion Hst; subst. constructor.
  - inversion Hev as [|? it ? items' Hseg Hev']; subst.
    inversion Hst as [|? v ? vals' Hit Hst']; subst.
    rewrite fmap_cons. constructor; [|now apply (IH items')].
    destruct seg as [text|parts]; simpl in Hseg.
    + inversion Hseg; subst. simpl in Hit. inversion Hit; subst. constructor.
    + destruct (genericResolver context parts) as [r|e] eqn:Er;
        [|discriminate].
      simpl in Hseg. inversion Hseg; subst.
      destruct r as [w|[s|p]]; simpl in Hit.
      * inversion Hit; subst. now apply sv_walked.
      * inversion Hit; subst. now apply sv_returned.
      * destruct (outcome p) as [s|e] eqn:Eo; [|discriminate].
        simpl in Hit. inversion Hit; subst. now apply (sv_awaited _ _ p).
Qed.

(** C6: when interpolation succeeds its result is the concatenation, in
    source order, of the values of the segments of the template; and a
    template without [${] is returned as it is, in every context. *)
Theorem parseTemplateString_concatenates (sched : Schedule)
    (template : string) (context : TemplateStringContext) :
  (forall out,
     parseTemplateString pegParser sched template context = Normal out ->
     exists segs vals,
       tokenize template = Some segs /\
       Forall2 (segment_value context) segs vals /\
       out = foldr String.append "" vals) /\
  (has_format_start template = false ->
   parseTemplateString pegParser sched template context = Normal template).
Proof.
  split.
  - intros out H. unfold parseTemplateString in H. simpl in H.
    destruct (tokenize template) as [segs|] eqn:Et; [|discriminate].
    destruct (mapM _ segs) as [items|e] eqn:Ei; [|discriminate].
    simpl in H.
    destruct (Bluebird_all sched items) as [vals|e] eqn:Eb; [|discriminate].
    simpl in H. inversion H; subst.
    exists segs, (to_string <$> vals). split; [reflexivity|]. split.
    + apply mapM_Normal in Ei. apply Bluebird_all_Normal in Eb.
      now apply (segment_values sched context segs items).
    + apply join_empty_separator.
  - intros Hs. unfold parseTemplateString. simpl.
    rewrite (tokenize_plain_text _ Hs). unfold lit_segment.
    destruct (String.eqb template "") eqn:E.
    + apply String.eqb_eq in E. now subst.
    + reflexivity.
Qed.

Lemma parseTemplateString_concatenates_witness :
  (exists segs vals,
     tokenize "hello ${name}" = Some segs /\
     Forall2 (segment_value {[ "name" := VPrim (PStr "world") ]}) segs vals /\
     "hello world" = foldr String.append "" vals) /\
  parseTemplateString pegParser (fun _ => 0%nat) "plain $ text {}" ∅
  = Normal "plain $ text {}".
Proof.
  split.
  - exact (proj1 (parseTemplateString_concatenates (fun _ => 0%nat)
             "hello ${name}" {[ "name" := VPrim (PStr "world") ]})
             "hello world" eq_refl).
  - exact (proj2 (parseTemplateString_concatenates (fun _ => 0%nat)
             "plain $ text {}" ∅) eq_refl).
Defined.

(** * Properties of the deep resolver *)

Section TreeInduction.

Context {L : Type} (P : Tree L -> Prop).
Hypothesis P_leaf : forall l, P (Leaf l).
Hypothesis P_arr : forall items, Forall P items -> P (Arr items).
Hypothesis P_obj :
  forall fields, Forall (fun kv => P kv.2) fields -> P (Obj fields).

Lemma Tree_nested_ind : forall t, P t.
Proof.
  fix IH 1. intros [l|items|fields].
  - apply P_leaf.
  - apply P_arr. induction items as [|t items IHitems]; constructor.
    + apply IH.
    + exact IHitems.
  - apply P_obj. induction fields as [|[k t] fields IHfields]; constructor.
    + apply IH.
    + exact IHfields.
Qed.

End TreeInduction.

Lemma first_error_app {A : Type} (l1 l2 : list (Completion A)) :
  first_error (l1 ++ l2)
  = match first_error l1 with
    | Some e => Some e
    | None => first_error l2
    end.
Proof.
  induction l1 as [|[a|e] l1 IH]; simpl; [reflexivity|exact IH|reflexivity].
Qed.

Lemma leaves_deepMap {A B : Type} (fn : A -> B) (o : Tree A) :
  leaves (deepMap fn o) = fn <$> leaves o.
Proof.
  induction o as [l|items IH|fields IH] using Tree_nested_ind; simpl.
  - reflexivity.
  - induction IH as [|t items Ht _ IHitems]; [reflexivity|].
    rewrite !fmap_cons. cbn [concat]. now rewrite fmap_app, Ht, IHitems.
  - induction IH as [|[k t] fields Ht _ IHfields]; [reflexivity|].
    rewrite !fmap_cons. cbn [concat]. simpl in Ht.
    now rewrite fmap_app, Ht, IHfields.
Qed.

(** Awaiting a tree fails with the first failing leaf, in structural
    order, and succeeds when no leaf fails. *)
Lemma deepResolve_first_error (t : Tree MappedLeaf) :
  match deepResolve t with
  | Normal _ => first_error (await_leaf <$> leaves t) = None
  | Throw e => first_error (await_leaf <$> leaves t) = Some e
  end.
Proof.
  induction t as [l|items IH|fields IH] using Tree_nested_ind.
  - simpl. destruct (await_leaf l); reflexivity.
  - assert (Haux :
      match mapM deepResolve items with
      | Normal _ =>
          first_error (await_leaf <$> concat (leaves <$> items)) = None
      | Throw e =>
          first_error (await_leaf <$> concat (leaves <$> items)) = Some e
      end).
    { induction IH as [|t items Ht _ IHitems]; [reflexivity|].
      rewrite mapM_cons, fmap_cons. cbn [concat].
      rewrite fmap_app, first_error_app.
      revert Ht. destruct (deepResolve t) as [t'|e]; intros ->; simpl;
        [|reflexivity].
      destruct (mapM deepResolve items); exact IHitems. }
    cbn [deepResolve leaves].
    destruct (mapM deepResolve items); exact Haux.
  - assert (Haux :
      match mapM (fun '(k, v) => v' ← deepResolve v; Normal (k, v')) fields
      with
      | Normal _ =>
          first_error
            (await_leaf <$> concat ((fun '(_, v) => leaves v) <$> fields))
          = None
      | Throw e =>
          first_error
            (await_leaf <$> concat ((fun '(_, v) => leaves v) <$> fields))
          = Some e
      end).
    { induction IH as [|[k t] fields Ht _ IHfields]; [reflexivity|].
      rewrite mapM_cons, fmap_cons. cbn [concat].
      rewrite fmap_app, first_error_app. simpl in Ht. cbn beta iota.
      revert Ht. destruct (deepResolve t) as [t'|e]; intros ->; simpl;
        [|reflexivity].
      destruct (mapM _ fields); exact IHfields. }
    cbn [deepResolve leaves].
    destruct (mapM _ fields); exact Haux.
Qed.

Section DeepResolver.

Context (parser : Parser) (sched : Schedule) (context : TemplateStringContext).

Lemma resolveTemplateStrings_first_error (o : Tree Scalar) :
  match resolveTemplateStrings parser sched o context with
  | Normal _ =>
      first_error (leaf_result parser sched context <$> leaves o) = None
  | Throw e =>
      first_error (leaf_result parser sched context <$> leaves o) = Some e
  end.
Proof.
  unfold resolveTemplateStrings.
  pose proof (deepResolve_first_error
                (deepMap (resolve_leaf parser sched context) o)) as H.
  rewrite leaves_deepMap, <- list_fmap_compose in H. exact H.
Qed.

Lemma resolveTemplateStrings_mirrors (o : Tree Scalar) :
  forall o',
    resolveTemplateStrings parser sched o context = Normal o' ->
    mirrors parser sched context o o'.
Proof.
  unfold resolveTemplateStrings.
  induction o as [v|items IH|fields IH] using Tree_nested_ind; intros o' H.
  - destruct v as [|b|n|s]; simpl in H; try (inversion H; subst; constructor).
    destruct (parseTemplateString parser sched s context) as [s'|e] eqn:E;
      [|discriminate].
    simpl in H. inversion H; subst. now constructor.
  - cbn [deepMap deepResolve] in H.
    destruct (mapM deepResolve _) as [items'|e] eqn:E; [|discriminate].
    simpl in H. inversion H; subst. constructor.
    apply mapM_Normal in E. apply Forall2_fmap_l in E.
    clear H. revert items' E.
    induction IH as [|t items Ht _ IHitems]; intros items' E.
    + inversion E; subst. constructor.
    + inversion E; subst. constructor; [now apply Ht|now apply IHitems].
  - cbn [deepMap deepResolve] in H.
    destruct (mapM _ _) as [fields'|e] eqn:E; [|discriminate].
    simpl in H. inversion H; subst. constructor.
    apply mapM_Normal in E. apply Forall2_fmap_l in E.
    clear H. revert fields' E.
    induction IH as [|[k t] fields Ht _ IHfields]; intros fields' E.
    + inversion E; subst. constructor.
    + inversion E as [|? [k' t'] ? fields'' Hkt E']; subst.
      constructor; [|now apply IHfields].
      simpl in Hkt, Ht |- *.
      destruct (deepResolve _) as [t''|e] eqn:Et; [|discriminate].
      simpl in Hkt. inversion Hkt; subst. split; [reflexivity|now apply Ht].
Qed.

End DeepResolver.

Lemma mirrors_shape (parser : Parser) (sched : Schedule)
    (context : TemplateStringContext) (o : Tree Scalar) :
  forall o',
    mirrors parser sched context o o' ->
    deepMap (fun _ => tt) o' = deepMap (fun _ => tt) o.
Proof.
  induction o as [v|items IH|fields IH] using Tree_nested_ind;
    intros o' H; inversion H; subst; try reflexivity.
  - cbn [deepMap]. f_equal. clear H.
    match goal with Hf : Forall2 _ items _ |- _ => revert Hf end.
    generalize dependent items'.
    induction IH as [|t items Ht _ IHitems]; intros items' Hf;
      inversion Hf; subst; [reflexivity|].
    rewrite !fmap_cons. f_equal; [now apply Ht|now apply IHitems].
  - cbn [deepMap]. f_equal. clear H.
    match goal with Hf : Forall2 _ fields _ |- _ => revert Hf end.
    generalize dependent fields'.
    induction IH as [|[k t] fields Ht _ IHfields]; intros fields' Hf;
      inversion Hf as [|? [k' t'] ? ? [Hk Hm] Hf']; subst; [reflexivity|].
    rewrite !fmap_cons. simpl in Hk, Hm, Ht. subst k'.
    f_equal; [f_equal; now apply Ht|now apply IHfields].
Qed.

(** C5: when the deep resolver succeeds, its result mirrors the input:
    arrays keep their length and order, objects their fields and keys,
    every string leaf holds the interpolation of the string at that place
    and every null, boolean and number leaf is the one of the input; in
    particular both trees have the same shape. *)
Theorem resolveTemplateStrings_preserves_shape (parser : Parser)
    (sched : Schedule) (o o' : Tree Scalar) (context : TemplateStringContext) :
  resolveTemplateStrings parser sched o context = Normal o' ->
  mirrors parser sched context o o' /\
  deepMap (fun _ => tt) o' = deepMap (fun _ => tt) o.
Proof.
  intros H. apply resolveTemplateStrings_mirrors in H.
  split; [assumption|]. now apply (mirrors_shape parser sched context).
Qed.

Lemma resolveTemplateStrings_preserves_shape_witness :
  let context : TemplateStringContext :=
    {[ "x" := VPrim (PStr "X"); "y" := VPrim (PStr "Y") ]} in
  let o :=
    Obj [("a", Leaf (SStr "${x}"));
         ("b", Arr [Leaf (SNum 1); Leaf (SStr "${y}")]);
         ("c", Leaf (SNum 2))] in
  let o' :=
    Obj [("a", Leaf (SStr "X"));
         ("b", Arr [Leaf (SNum 1); Leaf (SStr "Y")]);
         ("c", Leaf (SNum 2))] in
  mirrors pegParser (fun _ => 0%nat) context o o' /\
  deepMap (fun _ => tt) o' = deepMap (fun _ => tt) o.
Proof.
  intros context o o'.
  exact (resolveTemplateStrings_preserves_shape pegParser (fun _ => 0%nat)
           o o' context eq_refl).
Defined.

(** * Failure of a call *)

Lemma parse_pegParser (template : string) (getKey : GetKey) :
  parse pegParser template getKey
  = match tokenize template with
    | None => Throw (syntax_error template)
    | Some segs => mapM (eval_segment getKey) segs
    end.
Proof. reflexivity. Qed.

Lemma parseTemplateString_parse_Throw (parser : Parser) (sched : Schedule)
    (template : string) (context : TemplateStringContext) (e : JsError) :
  parse parser template (genericResolver context) = Throw e ->
  parseTemplateString parser sched template context = Throw e.
Proof. intros H. unfold parseTemplateString. now rewrite H. Qed.

Lemma parseTemplateString_parse_Normal (parser : Parser) (sched : Schedule)
    (template : string) (context : TemplateStringContext)
    (items : list Item) :
  parse parser template (genericResolver context) = Normal items ->
  parseTemplateString parser sched template context
  = (resolved ← Bluebird_all sched items;
     Normal (join "" (to_string <$> resolved))).
Proof. intros H. unfold parseTemplateString. now rewrite H. Qed.

(** C4 as stated fails: the template [${a.x}${b.x}] in a context where
    both functions return a rejected promise reports the failure of [a]
    when the promise of [a] settles first and the failure of [b], the
    second segment, when the promise of [b] does. *)
Lemma reported_error_follows_settlement :
  parseTemplateString pegParser a_settles_first "${a.x}${b.x}" racing_context
  = Throw (OtherError "a failed") /\
  parseTemplateString pegParser b_settles_first "${a.x}${b.x}" racing_context
  = Throw (OtherError "b failed") /\
  parseTemplateString pegParser a_settles_first "${a.x}${b.x}" racing_context
  <> parseTemplateString pegParser b_settles_first "${a.x}${b.x}"
       racing_context.
Proof. repeat split; try reflexivity. discriminate. Qed.

(** C4, amended: the error of a failed interpolation is the syntax error
    of the template; or else the error thrown for the first segment, in
    source order, whose key path fails to resolve, whatever the schedule;
    or else, all segments having been evaluated, the reason of the
    rejection that settles first.  The error of a failed deep resolution is
    that of the first failing leaf in structural order. *)
Theorem reported_error_choice (sched : Schedule)
    (context : TemplateStringContext) :
  (forall template e,
     parseTemplateString pegParser sched template context = Throw e ->
     (tokenize template = None /\ e = syntax_error template) \/
     (exists segs,
        tokenize template = Some segs /\
        first_error (eval_segment (genericResolver context) <$> segs)
        = Some e /\
        forall sched',
          parseTemplateString pegParser sched' template context = Throw e) \/
     (exists items t,
        parse pegParser template (genericResolver context) = Normal items /\
        (exists it, it ∈ items /\ rejection sched it = Some (t, e)) /\
        (forall it' t' e',
           it' ∈ items -> rejection sched it' = Some (t', e') ->
           (t <= t')%nat))) /\
  (forall o e,
     resolveTemplateStrings pegParser sched o context = Throw e ->
     first_error (leaf_result pegParser sched context <$> leaves o) = Some e).
Proof.
  split.
  - intros template e H.
    destruct (tokenize template) as [segs|] eqn:Et.
    + destruct (mapM (eval_segment (genericResolver context)) segs)
        as [items|e0] eqn:Em.
      * right; right.
        assert (Hp : parse pegParser template (genericResolver context)
                     = Normal items)
          by now rewrite parse_pegParser, Et.
        rewrite (parseTemplateString_parse_Normal _ _ _ _ _ Hp) in H.
        destruct (Bluebird_all sched items) as [vals|e1] eqn:Eb;
          [discriminate|].
        simpl in H. inversion H; subst.
        apply Bluebird_all_Throw in Eb as [t Ee].
        exists items, t. split; [assumption|].
        now apply earliest_rejection_Some.
      * right; left.
        assert (Hp : parse pegParser template (genericResolver context)
                     = Throw e0)
          by now rewrite parse_pegParser, Et.
        rewrite (parseTemplateString_parse_Throw _ sched _ _ _ Hp) in H.
        inversion H; subst. exists segs. split; [reflexivity|]. split.
        -- now apply mapM_Throw.
        -- intros sched'. now apply parseTemplateString_parse_Throw.
    + left. split; [reflexivity|].
      assert (Hp : parse pegParser template (genericResolver context)
                   = Throw (syntax_error template))
        by now rewrite parse_pegParser, Et.
      rewrite (parseTemplateString_parse_Throw _ sched _ _ _ Hp) in H.
      now inversion H.
  - intros o e H.
    pose proof (resolveTemplateStrings_first_error pegParser sched context o)
      as Hf.
    now rewrite H in Hf.
Qed.

Lemma reported_error_choice_witness :
  exists items t,
    parse pegParser "${a.x}${b.x}" (genericResolver racing_context)
    = Normal items /\
    (exists it, it ∈ items /\
       rejection b_settles_first it = Some (t, OtherError "b failed")) /\
    (forall it' t' e',
       it' ∈ items -> rejection b_settles_first it' = Some (t', e') ->
       (t <= t')%nat).
Proof.
  destruct (proj1 (reported_error_choice b_settles_first racing_context)
              "${a.x}${b.x}" (OtherError "b failed") eq_refl)
    as [[H _]|[(segs & Ht & H & _)|H]].
  - exfalso. vm_compute in H. discriminate.
  - exfalso. vm_compute in Ht. inversion Ht; subst.
    vm_compute in H. discriminate.
  - exact H.
Defined.

(** C7: an error thrown by the parser call, be it the parser's own or one
    of the key-path resolver, is the outcome of the interpolation; a
    malformed template, a key path that fails to resolve, a pending result
    that is rejected each make the interpolation fail, with the error
    raised first; and a failing string leaf makes the deep resolution
    fail, with the error of a leaf.  No output is produced in any of these
    cases. *)
Theorem errors_abort_the_call (parser : Parser) (sched : Schedule)
    (context : TemplateStringContext) :
  (forall template e,
     parse parser template (genericResolver context) = Throw e ->
     parseTemplateString parser sched template context = Throw e) /\
  (forall template,
     tokenize template = None ->
     parseTemplateString pegParser sched template context
     = Throw (syntax_error template)) /\
  (forall template segs parts e,
     tokenize template = Some segs ->
     Expr parts ∈ segs ->
     genericResolver context parts = Throw e ->
     exists e',
       first_error (eval_segment (genericResolver context) <$> segs)
       = Some e' /\
       parseTemplateString pegParser sched template context = Throw e') /\
  (forall template items it t e,
     parse parser template (genericResolver context) = Normal items ->
     it ∈ items ->
     rejection sched it = Some (t, e) ->
     exists t' e',
       earliest_rejection sched items = Some (t', e') /\
       parseTemplateString parser sched template context = Throw e') /\
  (forall o s e,
     SStr s ∈ leaves o ->
     parseTemplateString parser sched s context = Throw e ->
     exists e',
       first_error (leaf_result parser sched context <$> leaves o)
       = Some e' /\
       resolveTemplateStrings parser sched o context = Throw e').
Proof.
  split; [|split; [|split; [|split]]].
  - intros template e. apply parseTemplateString_parse_Throw.
  - intros template Ht. apply parseTemplateString_parse_Throw.
    now rewrite parse_pegParser, Ht.
  - intros template segs parts e Ht Hin He.
    assert (Hth : Throw e ∈ eval_segment (genericResolver context) <$> segs).
    { apply (list_elem_of_fmap_2' _ _ (Expr parts)); [assumption|].
      simpl. now rewrite He. }
    destruct (first_error_elem _ _ Hth) as [e' He'].
    exists e'. split; [assumption|].
    apply parseTemplateString_parse_Throw.
    rewrite parse_pegParser, Ht. now apply mapM_Throw.
  - intros template items it t e Hp Hin Hr.
    destruct (earliest_rejection sched items) as [[t' e']|] eqn:Ee.
    + exists t', e'. split; [reflexivity|].
      rewrite (parseTemplateString_parse_Normal _ _ _ _ _ Hp).
      assert (Hb : Bluebird_all sched items = Throw e')
        by (apply Bluebird_all_Throw; eauto).
      now rewrite Hb.
    + exfalso. apply earliest_rejection_None in Ee.
      rewrite Forall_forall in Ee. rewrite (Ee _ Hin) in Hr. discriminate.
  - intros o s e Hin He.
    assert (Hth : Throw e ∈ leaf_result parser sched context <$> leaves o).
    { apply (list_elem_of_fmap_2' _ _ (SStr s)); [assumption|].
      unfold leaf_result. simpl. now rewrite He. }
    destruct (first_error_elem _ _ Hth) as [e' He'].
    exists e'. split; [assumption|].
    pose proof (resolveTemplateStrings_first_error parser sched context o)
      as Hf.
    destruct (resolveTemplateStrings parser sched o context); congruence.
Qed.

Lemma errors_abort_the_call_witness :
  parseTemplateString pegParser (fun _ => 0%nat) "${missing.key}" ∅
  = Throw (TemplateStringError "Could not find key: missing.key") /\
  parseTemplateString pegParser (fun _ => 0%nat) "a ${x" ∅
  = Throw (syntax_error "a ${x") /\
  exists e',
    first_error
      (leaf_result pegParser (fun _ => 0%nat) ∅
         <$> leaves (Arr [Leaf (SNum 1); Leaf (SStr "${missing.key}")]))
    = Some e' /\
    resolveTemplateStrings pegParser (fun _ => 0%nat)
      (Arr [Leaf (SNum 1); Leaf (SStr "${missing.key}")]) ∅
    = Throw e'.
Proof.
  pose proof (errors_abort_the_call pegParser (fun _ => 0%nat) ∅)
    as (H1 & H2 & _ & _ & H5).
  split; [|split].
  - exact (H1 "${missing.key}" _ eq_refl).
  - exact (H2 "a ${x" eq_refl).
  - apply (H5 (Arr [Leaf (SNum 1); Leaf (SStr "${missing.key}")])
             "${missing.key}"
             (TemplateStringError "Could not find key: missing.key")).
    + apply elem_of_cons. right. apply elem_of_cons. now left.
    + reflexivity.
Defined.

(** * The context builder *)

(** C8: the built context holds, under every key of the extra context,
    the value the extra context has there, as it is; under the reserved
    key [env], unless the extra context has that key, the mapping of the
    process environment, each variable with its value; and nothing else.
    Without argument it is the base context alone. *)
Theorem getTemplateContext_shallow_merge (process_env : gmap string string)
    (extraContext : TemplateStringContext) :
  (forall key,
     getTemplateContext process_env (Some extraContext) !! key
     = match extraContext !! key with
       | Some v => Some v
       | None =>
           if decide (key = "env") then Some (env_value process_env)
           else None
       end) /\
  (forall name,
     get_prop (env_value process_env) name
     = match process_env !! name with
       | Some s => VPrim (PStr s)
       | None => VUndefined
       end) /\
  getTemplateContext process_env None = {[ "env" := env_value process_env ]}.
Proof.
  split; [|split].
  - intros key. unfold getTemplateContext. simpl.
    rewrite lookup_union. destruct (extraContext !! key) as [v|] eqn:E.
    + now rewrite union_Some_l.
    + rewrite (left_id None _). rewrite lookup_singleton.
      destruct (decide (key = "env")) as [->|Hne].
      * now rewrite decide_True.
      * rewrite decide_False; [reflexivity|congruence].
  - intros name. unfold env_value, get_prop. rewrite lookup_fmap.
    now destruct (process_env !! name).
  - unfold getTemplateContext. simpl. apply (left_id ∅ _).
Qed.

(** * The parser accessor *)

(** Once the variable is set, a call returns its value and changes
    nothing. *)
Lemma getParser_set (env : Loader) (m : ModuleState) (p : ParserRef) :
  _parser m = Some p -> getParser env m = (Normal p, m).
Proof. intros H. unfold getParser. now rewrite H. Qed.

Lemma getParser_calls_set (envs : list Loader) (m : ModuleState)
    (p : ParserRef) :
  _parser m = Some p ->
  getParser_calls envs m = ((fun _ => Normal p) <$> envs, m).
Proof.
  intros H. induction envs as [|env envs IH]; [reflexivity|].
  cbn [getParser_calls]. now rewrite (getParser_set _ _ _ H), IH.
Qed.

(** An interpolation of a process whose parser is there uses that parser
    and changes nothing. *)
Lemma parseTemplateString_call_set (env : Loader) (sched : Schedule)
    (template : string) (context : TemplateStringContext) (m : ModuleState)
    (p : ParserRef) :
  _parser m = Some p ->
  parseTemplateString_call env sched template context m
  = (parseTemplateString (object p) sched template context, m).
Proof.
  intros H. unfold parseTemplateString_call.
  now rewrite (getParser_set _ _ _ H).
Qed.

(** A call that returns a parser leaves the variable set to it. *)
Lemma getParser_Normal (env : Loader) (m m' : ModuleState) (p : ParserRef) :
  getParser env m = (Normal p, m') -> _parser m' = Some p.
Proof.
  unfold getParser. destruct (_parser m) as [q|] eqn:E.
  - intros H. inversion H; subst. assumption.
  - destruct (construct env); intros H; inversion H; subst. reflexivity.
Qed.

(** From a state where the variable is unset: either every call failed
    and nothing changed, or one parser was built, at the next free
    address, and every call that returned, returned it. *)
Lemma getParser_calls_unset (envs : list Loader) :
  forall m results final,
    _parser m = None ->
    getParser_calls envs m = (results, final) ->
    (final = m /\ Forall (fun r => exists e, r = Throw e) results) \/
    (exists p,
       final = {| _parser := Some p; built := S (built m) |} /\
       address p = built m /\
       Forall (fun r => (exists e, r = Throw e) \/ r = Normal p) results).
Proof.
  induction envs as [|env envs IH]; intros m results final Hm H.
  - inversion H; subst. left. split; [reflexivity|constructor].
  - cbn [getParser_calls] in H. unfold getParser in H. rewrite Hm in H.
    destruct (construct env) as [obj|e].
    + set (p := {| address := built m; object := obj |}) in *.
      rewrite (getParser_calls_set envs
                 {| _parser := Some p; built := S (built m) |} p eq_refl) in H.
      inversion H; subst. right. exists p. repeat split.
      constructor; [now right|].
      apply Forall_fmap, Forall_forall. intros; now right.
    + destruct (getParser_calls envs m) as [rs m''] eqn:E.
      inversion H; subst.
      destruct (IH _ _ _ Hm E) as [[-> Hrs]|(p & -> & Ha & Hrs)].
      * left. split; [reflexivity|]. constructor; eauto.
      * right. exists p. repeat split; [assumption|].
        constructor; eauto.
Qed.

(** C9: the first call of the accessor runs the construction; a call
    that returned a parser is followed only by calls that return the same
    parser and leave the state alone; and over any sequence of calls of a
    process at most one parser is built and every call that returns,
    returns that one. *)
Theorem getParser_builds_once (envs : list Loader) :
  (forall env,
     getParser env initial_state
     = match construct env with
       | Normal obj =>
           (Normal {| address := 0; object := obj |},
            {| _parser := Some {| address := 0; object := obj |};
               built := 1 |})
       | Throw e => (Throw e, initial_state)
       end) /\
  (forall env env' m m' p,
     getParser env m = (Normal p, m') ->
     getParser env' m' = (Normal p, m')) /\
  (forall results final,
     getParser_calls envs initial_state = (results, final) ->
     (built final <= 1)%nat /\
     (forall i j p q,
        results !! i = Some (Normal p) ->
        results !! j = Some (Normal q) ->
        p = q /\ _parser final = Some p)).
Proof.
  split; [|split].
  - intros env. unfold getParser. simpl. now destruct (construct env).
  - intros env env' m m' p H. apply getParser_set.
    now apply (getParser_Normal env m).
  - intros results final H.
    destruct (getParser_calls_unset envs initial_state _ _ eq_refl H)
      as [[-> Hrs]|(p0 & -> & Ha & Hrs)].
    + split; [simpl; lia|]. intros i j p q Hi _. exfalso.
      rewrite Forall_lookup in Hrs. destruct (Hrs _ _ Hi) as [e He].
      discriminate.
    + split; [simpl; lia|]. intros i j p q Hi Hj.
      rewrite Forall_lookup in Hrs.
      destruct (Hrs _ _ Hi) as [[e He]|Hp]; [discriminate|].
      destruct (Hrs _ _ Hj) as [[e He]|Hq]; [discriminate|].
      inversion Hp; inversion Hq; subst. now split.
Qed.

Lemma getParser_builds_once_witness :
  let run := getParser_calls [broken_env; precompiled_env; broken_env]
               initial_state in
  (built run.2 <= 1)%nat /\
  (forall i j p q,
     run.1 !! i = Some (Normal p) ->
     run.1 !! j = Some (Normal q) ->
     p = q /\ _parser run.2 = Some p).
Proof.
  exact (proj2 (proj2 (getParser_builds_once
                         [broken_env; precompiled_env; broken_env]))
           _ _ eq_refl).
Defined.

(** * Further properties of the key-path resolver *)

Section NestedObjects.

Context (context : TemplateStringContext).

Lemma lookup_part_reads_in (value : JsValue) (o : gmap string JsValue)
    (part : string) :
  reads_in context value o ->
  lookup_part context value part = default VUndefined (o !! part).
Proof. intros [[-> ->]| ->]; reflexivity. Qed.

Lemma walk_descend (keys : list string) :
  forall value o o',
    reads_in context value o ->
    descend o keys = Some o' ->
    exists value',
      walk context value keys = Some value' /\ reads_in context value' o'.
Proof.
  induction keys as [|key keys IH]; intros value o o' Hr Hd; simpl in Hd.
  - inversion Hd; subst. now exists value.
  - destruct (o !! key) as [[| |f|o1]|] eqn:E; try discriminate.
    destruct (IH (VObj o1) o1 o' (or_intror eq_refl) Hd) as (v' & Hw & Hr').
    exists v'. split; [|assumption].
    simpl. rewrite (lookup_part_reads_in _ _ _ Hr), E. exact Hw.
Qed.

Lemma descend_nonempty_object (keys : list string) :
  forall value o o' value',
    keys <> [] ->
    reads_in context value o ->
    descend o keys = Some o' ->
    walk context value keys = Some value' ->
    value' = VObj o'.
Proof.
  induction keys as [|key keys IH]; intros value o o' value' Hne Hr Hd Hw;
    [congruence|].
  simpl in Hd, Hw. rewrite (lookup_part_reads_in _ _ _ Hr) in Hw.
  destruct (o !! key) as [[| |f|o1]|] eqn:E; try discriminate.
  simpl in Hw. destruct keys as [|key' keys].
  - simpl in Hd, Hw. congruence.
  - now apply (IH (VObj o1) o1 o' value' ltac:(discriminate)
                  (or_intror eq_refl)).
Qed.

End NestedObjects.

Lemma reads_in_context (context : TemplateStringContext) :
  reads_in context VUndefined context.
Proof. now left. Qed.

(** Results do not depend on the path kept for the error messages. *)
Lemma resolve_loop_Normal_path (context : TemplateStringContext)
    (path path' : string) (rest : list string) :
  forall value r,
    resolve_loop context path value rest = Normal r ->
    resolve_loop context path' value rest = Normal r.
Proof.
  induction rest as [|part rest IH]; intros value r H; simpl in H |- *.
  - destruct (negb (isPrimitive value)); [discriminate|assumption].
  - destruct (lookup_part context value part); try discriminate;
      try (now apply IH); assumption.
Qed.

(** With a falsy accumulator the loop goes on as with an unset one. *)
Lemma resolve_loop_falsy (context : TemplateStringContext) (path : string)
    (value : JsValue) (rest : list string) :
  truthy value = false ->
  rest <> [] ->
  resolve_loop context path value rest
  = resolve_loop context path VUndefined rest.
Proof.
  intros Hf Hne. destruct rest as [|part rest]; [congruence|].
  simpl. now rewrite (lookup_part_falsy _ _ _ Hf).
Qed.

(** The loop reads the context only under the parts still to come. *)
Lemma resolve_loop_local (context context' : TemplateStringContext)
    (path : string) (rest : list string) :
  forall value,
    (forall key, key ∈ rest -> context !! key = context' !! key) ->
    resolve_loop context path value rest
    = resolve_loop context' path value rest.
Proof.
  induction rest as [|part rest IH]; intros value Heq; [reflexivity|].
  assert (Hl : lookup_part context value part
               = lookup_part context' value part).
  { unfold lookup_part, ctx_get. rewrite (Heq part); [reflexivity|].
    apply elem_of_cons. now left. }
  simpl. rewrite Hl.
  assert (Hrest : forall key, key ∈ rest -> context !! key = context' !! key).
  { intros key Hin. apply Heq. apply elem_of_cons. now right. }
  destruct (lookup_part context' value part); try reflexivity;
    now apply IH.
Qed.

Lemma resolve_loop_Throw (context : TemplateStringContext) (path : string)
    (rest : list string) :
  forall value e,
    resolve_loop context path value rest = Throw e ->
    e = TemplateStringError (not_found_message path) \/
    e = TemplateStringError (not_primitive_message path) \/
    exists pre part post acc f,
      rest = (pre ++ part :: post)%list /\
      walk context value pre = Some acc /\
      lookup_part context acc part = VFun f /\
      f post = Throw e.
Proof.
  induction rest as [|part rest IH]; intros value e H; simpl in H.
  - destruct (negb (isPrimitive value)); inversion H; subst. right. now left.
  - destruct (lookup_part context value part) eqn:E.
    + inversion H; subst. now left.
    + destruct (IH _ _ H)
        as [->|[->|(pre & q & post & acc & f & -> & Hw & Hl & Hf)]];
        [now left|right; now left|].
      right; right. exists (part :: pre), q, post, acc, f. simpl. rewrite E.
      repeat split; assumption.
    + right; right. exists [], part, rest, value, f. simpl.
      destruct (f rest) eqn:Ef; simpl in H; inversion H; subst.
      repeat split; assumption.
    + destruct (IH _ _ H)
        as [->|[->|(pre & q & post & acc & f & -> & Hw & Hl & Hf)]];
        [now left|right; now left|].
      right; right. exists (part :: pre), q, post, acc, f. simpl. rewrite E.
      repeat split; assumption.
Qed.

(** X1: a path that goes through nested objects to a key holding a
    primitive resolves to that primitive, falsy ones included. *)
Theorem genericResolver_nested_primitive (context : TemplateStringContext)
    (keys : list string) (o : gmap string JsValue) (key : string)
    (p : Primitive) :
  descend context keys = Some o ->
  o !! key = Some (VPrim p) ->
  genericResolver context (keys ++ [key]) = Normal (Walked (VPrim p)).
Proof.
  intros Hd Hk.
  destruct (walk_descend context keys _ _ _ (reads_in_context context) Hd)
    as (acc & Hw & Hr).
  unfold genericResolver.
  rewrite (resolve_loop_app _ _ keys [key] _ _ Hw). simpl.
  rewrite (lookup_part_reads_in _ _ _ _ Hr), Hk. simpl.
  now destruct p.
Qed.

Lemma genericResolver_nested_primitive_witness :
  genericResolver nested_context ["cfg"; "a"] = Normal (Walked (VPrim (PNum 1))).
Proof.
  exact (genericResolver_nested_primitive nested_context ["cfg"]
           {[ "a" := VPrim (PNum 1) ]} "a" (PNum 1) eq_refl eq_refl).
Defined.



(** X3: a non-empty path that ends on a nested object fails with the
    non-primitive error for that path. *)
Theorem genericResolver_nested_object (context : TemplateStringContext)
    (keys : list string) (o : gmap string JsValue) :
  keys <> [] ->
  descend context keys = Some o ->
  genericResolver context keys
  = Throw (TemplateStringError
             ("Value at " +:+ join "." keys +:+
              " exists but is not a primitive (string, number or boolean)")).
Proof.
  intros Hne Hd.
  destruct (walk_descend context keys _ _ _ (reads_in_context context) Hd)
    as (acc & Hw & _).
  pose proof (descend_nonempty_object context keys _ _ _ _ Hne
                (reads_in_context context) Hd Hw) as ->.
  unfold genericResolver. rewrite <- (app_nil_r keys) at 2.
  now rewrite (resolve_loop_app _ _ keys [] _ _ Hw).
Qed.

Lemma genericResolver_nested_object_witness :
  genericResolver nested_context ["cfg"]
  = Throw (TemplateStringError
             ("Value at " +:+ join "." ["cfg"] +:+
              " exists but is not a primitive (string, number or boolean)")).
Proof.
  exact (genericResolver_nested_object nested_context ["cfg"]
           {[ "a" := VPrim (PNum 1) ]} ltac:(discriminate) eq_refl).
Defined.

(** X4: the resolver fails in three ways only: with the not-found error
    for the path, with the non-primitive error for the path, or with the
    error the resolver function it called has thrown. *)
Theorem genericResolver_errors (context : TemplateStringContext)
    (parts : list string) (e : JsError) :
  genericResolver context parts = Throw e ->
  e = TemplateStringError ("Could not find key: " +:+ join "." parts) \/
  e = TemplateStringError
        ("Value at " +:+ join "." parts +:+
         " exists but is not a primitive (string, number or boolean)") \/
  exists pre part post acc f,
    parts = (pre ++ part :: post)%list /\
    walk context VUndefined pre = Some acc /\
    lookup_part context acc part = VFun f /\
    f post = Throw e.
Proof. apply resolve_loop_Throw. Qed.

Lemma genericResolver_errors_witness :
  TemplateStringError "Could not find key: missing.key"
  = TemplateStringError ("Could not find key: " +:+ join "." ["missing"; "key"])
  \/ TemplateStringError "Could not find key: missing.key"
     = TemplateStringError
         ("Value at " +:+ join "." ["missing"; "key"] +:+
          " exists but is not a primitive (string, number or boolean)")
  \/ exists pre part post acc f,
       ["missing"; "key"] = (pre ++ part :: post)%list /\
       walk ∅ VUndefined pre = Some acc /\
       lookup_part ∅ acc part = VFun f /\
       f post = Throw (TemplateStringError "Could not find key: missing.key").
Proof.
  exact (genericResolver_errors ∅ ["missing"; "key"]
           (TemplateStringError "Could not find key: missing.key") eq_refl).
Defined.

(** X5: when the walk of a prefix ends on a falsy primitive (0, the empty
    string, [false]) and parts remain, the call returns what the
    remaining parts alone resolve to from the top-level context. *)
Theorem genericResolver_falsy_restart (context : TemplateStringContext)
    (pre rest : list string) (acc : JsValue) (r : Resolved) :
  walk context VUndefined pre = Some acc ->
  truthy acc = false ->
  rest <> [] ->
  (genericResolver context (pre ++ rest) = Normal r <->
   genericResolver context rest = Normal r).
Proof.
  intros Hw Hf Hne. unfold genericResolver.
  rewrite (resolve_loop_app _ _ pre rest _ _ Hw).
  rewrite (resolve_loop_falsy _ _ _ _ Hf Hne).
  split; apply resolve_loop_Normal_path.
Qed.

Lemma genericResolver_falsy_restart_witness :
  genericResolver falsy_context (["a"] ++ ["b"])
  = Normal (Walked (VPrim (PStr "x"))) <->
  genericResolver falsy_context ["b"] = Normal (Walked (VPrim (PStr "x"))).
Proof.
  exact (genericResolver_falsy_restart falsy_context ["a"] ["b"]
           (VPrim (PNum 0)) (Walked (VPrim (PStr "x")))
           eq_refl eq_refl ltac:(discriminate)).
Defined.



(** X7: the resolver reads the context only under the keys that occur in
    the path: two contexts that agree on them give the same outcome. *)
Theorem genericResolver_local (context context' : TemplateStringContext)
    (parts : list string) :
  (forall key, key ∈ parts -> context !! key = context' !! key) ->
  genericResolver context parts = genericResolver context' parts.
Proof. intros H. unfold genericResolver. now apply resolve_loop_local. Qed.

Lemma genericResolver_local_witness :
  genericResolver falsy_context ["a"; "b"]
  = genericResolver (<[ "c" := VPrim (PBool true) ]> falsy_context) ["a"; "b"].
Proof.
  apply (genericResolver_local falsy_context
           (<[ "c" := VPrim (PBool true) ]> falsy_context) ["a"; "b"]).
  intros key Hin. rewrite lookup_insert_ne; [reflexivity|].
  intros <-. vm_compute in Hin.
  repeat (apply elem_of_cons in Hin as [Hin|Hin]; [discriminate|]).
  inversion Hin.
Defined.

(** * Further properties of the interpolator and of the deep resolver *)

Lemma first_error_None {A : Type} (results : list (Completion A)) :
  first_error results = None <->
  Forall (fun r => exists a, r = Normal a) results.
Proof.
  induction results as [|[a|e] results IH]; simpl.
  - split; [constructor|reflexivity].
  - rewrite IH. split.
    + intros H. constructor; eauto.
    + intros H. now inversion H.
  - split; [discriminate|].
    intros H. inversion H as [|? ? [a Ha]]. discriminate.
Qed.

Lemma parseTemplateString_Normal_any_schedule (parser : Parser)
    (sched sched' : Schedule) (template : string)
    (context : TemplateStringContext) (out : string) :
  parseTemplateString parser sched template context = Normal out ->
  parseTemplateString parser sched' template context = Normal out.
Proof.
  unfold parseTemplateString.
  destruct (parse parser template (genericResolver context))
    as [items|e]; [|discriminate].
  simpl. destruct (Bluebird_all sched items) as [vals|e] eqn:E;
    [|discriminate].
  apply Bluebird_all_Normal in E.
  apply (Bluebird_all_Normal sched') in E. now rewrite E.
Qed.

(** X8: whether an interpolation succeeds, and the string it gives, do
    not depend on when the pending results settle; only the error of a
    failed one may. *)
Theorem parseTemplateString_schedule (parser : Parser)
    (sched sched' : Schedule) (template : string)
    (context : TemplateStringContext) :
  (forall out,
     parseTemplateString parser sched template context = Normal out ->
     parseTemplateString parser sched' template context = Normal out) /\
  (forall e,
     parseTemplateString parser sched template context = Throw e ->
     exists e',
       parseTemplateString parser sched' template context = Throw e').
Proof.
  split.
  - intros out. apply parseTemplateString_Normal_any_schedule.
  - intros e H.
    destruct (parseTemplateString parser sched' template context)
      as [out|e'] eqn:E; [|now exists e'].
    apply (parseTemplateString_Normal_any_schedule _ _ sched) in E.
    congruence.
Qed.

Lemma parseTemplateString_schedule_witness :
  (exists e',
     parseTemplateString pegParser a_settles_first "${a.x}${b.x}"
       racing_context = Throw e') /\
  parseTemplateString pegParser b_settles_first "${env.FOO}" echo_context
  = Normal "FOO".
Proof.
  split.
  - exact (proj2 (parseTemplateString_schedule pegParser b_settles_first
                    a_settles_first "${a.x}${b.x}" racing_context)
             (OtherError "b failed") eq_refl).
  - exact (proj1 (parseTemplateString_schedule pegParser a_settles_first
                    b_settles_first "${env.FOO}" echo_context)
             "FOO" eq_refl).
Defined.

Lemma leaf_result_plain (parser : Parser) (sched : Schedule)
    (context : TemplateStringContext) (v : Scalar) :
  is_string v = false -> leaf_result parser sched context v = Normal v.
Proof. now destruct v. Qed.

Lemma deepResolve_plain (parser : Parser) (sched : Schedule)
    (context : TemplateStringContext) (o : Tree Scalar) :
  forallb (fun v => negb (is_string v)) (leaves o) = true ->
  deepResolve (deepMap (resolve_leaf parser sched context) o) = Normal o.
Proof.
  induction o as [v|items IH|fields IH] using Tree_nested_ind; intros H.
  - simpl in H. now destruct v.
  - cbn [deepMap deepResolve].
    assert (Hm : mapM deepResolve
                   (deepMap (resolve_leaf parser sched context) <$> items)
                 = Normal items).
    { cbn [leaves] in H. induction IH as [|t items Ht _ IHitems];
        [reflexivity|].
      rewrite fmap_cons in H. cbn [concat] in H.
      rewrite forallb_app in H. apply andb_prop in H as [H1 H2].
      rewrite fmap_cons, mapM_cons, (Ht H1). simpl.
      now rewrite (IHitems H2). }
    now rewrite Hm.
  - cbn [deepMap deepResolve].
    assert (Hm : mapM (fun '(k, v) => v' ← deepResolve v; Normal (k, v'))
                   ((fun '(k, v) =>
                       (k, deepMap (resolve_leaf parser sched context) v))
                      <$> fields)
                 = Normal fields).
    { cbn [leaves] in H. induction IH as [|[k t] fields Ht _ IHfields];
        [reflexivity|].
      rewrite fmap_cons in H. cbn [concat] in H.
      rewrite forallb_app in H. apply andb_prop in H as [H1 H2].
      rewrite fmap_cons, mapM_cons. simpl in Ht. cbn beta iota.
      rewrite (Ht H1). simpl. now rewrite (IHfields H2). }
    now rewrite Hm.
Qed.

(** X9: data without string leaves is returned as it is, for every
    context and every parser. *)
Theorem resolveTemplateStrings_plain (parser : Parser) (sched : Schedule)
    (o : Tree Scalar) (context : TemplateStringContext) :
  forallb (fun v => negb (is_string v)) (leaves o) = true ->
  resolveTemplateStrings parser sched o context = Normal o.
Proof. apply deepResolve_plain. Qed.

Lemma resolveTemplateStrings_plain_witness :
  resolveTemplateStrings pegParser (fun _ => 0%nat)
    (Obj [("a", Arr [Leaf (SNum 1); Leaf SNull]); ("b", Leaf (SBool true))])
    ∅
  = Normal
      (Obj [("a", Arr [Leaf (SNum 1); Leaf SNull]); ("b", Leaf (SBool true))]).
Proof.
  exact (resolveTemplateStrings_plain pegParser (fun _ => 0%nat)
           (Obj [("a", Arr [Leaf (SNum 1); Leaf SNull]);
                 ("b", Leaf (SBool true))]) ∅ eq_refl).
Defined.

(** X10: a deep resolution succeeds exactly when the interpolation of
    every string leaf does. *)
Theorem resolveTemplateStrings_succeeds_iff (parser : Parser)
    (sched : Schedule) (o : Tree Scalar) (context : TemplateStringContext) :
  (exists o', resolveTemplateStrings parser sched o context = Normal o') <->
  (forall s,
     SStr s ∈ leaves o ->
     exists s', parseTemplateString parser sched s context = Normal s').
Proof.
  pose proof (resolveTemplateStrings_first_error parser sched context o)
    as Hf.
  split.
  - intros [o' Ho] s Hin. rewrite Ho in Hf.
    apply first_error_None in Hf. rewrite Forall_forall in Hf.
    destruct (Hf (leaf_result parser sched context (SStr s))) as [v Hv].
    { now apply list_elem_of_fmap_2. }
    unfold leaf_result in Hv. simpl in Hv.
    destruct (parseTemplateString parser sched s context) as [s'|e];
      [now exists s'|discriminate].
  - intros Hall.
    destruct (resolveTemplateStrings parser sched o context) as [o'|e];
      [now exists o'|].
    exfalso. apply first_error_split in Hf as (pre & post & Hs & _).
    assert (Hin : Throw e ∈ leaf_result parser sched context <$> leaves o).
    { rewrite Hs. apply elem_of_app. right. apply elem_of_cons. now left. }
    apply list_elem_of_fmap in Hin as (v & Hv & Hin).
    destruct v as [|b|n|s]; try discriminate.
    destruct (Hall s Hin) as [s' Hs'].
    unfold leaf_result in Hv. simpl in Hv. rewrite Hs' in Hv. discriminate.
Qed.

Lemma resolveTemplateStrings_succeeds_iff_witness :
  exists s',
    parseTemplateString pegParser (fun _ => 0%nat) "${x}"
      {[ "x" := VPrim (PStr "X") ]}
    = Normal s'.
Proof.
  apply (proj1 (resolveTemplateStrings_succeeds_iff pegParser
                  (fun _ => 0%nat) (Arr [Leaf (SNum 1); Leaf (SStr "${x}")])
                  {[ "x" := VPrim (PStr "X") ]})).
  - exists (Arr [Leaf (SNum 1); Leaf (SStr "X")]). reflexivity.
  - apply elem_of_cons. right. apply elem_of_cons. now left.
Defined.

(** * Further properties of the context builder and of the accessor *)


Lemma getTemplateContext_other (process_env : gmap string string)
    (extraContext : TemplateStringContext) (key : string) :
  key <> "env" ->
  getTemplateContext process_env (Some extraContext) !! key
  = extraContext !! key.
Proof.
  intros H. unfold getTemplateContext. simpl.
  rewrite lookup_union, lookup_singleton_ne; [|congruence].
  apply (right_id None _).
Qed.

(** X11: an extra context that has the key [env] is the built context:
    nothing of the process environment enters it. *)
Theorem getTemplateContext_env_overridden (process_env : gmap string string)
    (extraContext : TemplateStringContext) :
  is_Some (extraContext !! "env") ->
  getTemplateContext process_env (Some extraContext) = extraContext.
Proof.
  intros [v Hv]. apply map_eq. intros key.
  destruct (decide (key = "env")) as [->|Hne].
  - unfold getTemplateContext. simpl. rewrite lookup_union, Hv.
    now rewrite union_Some_l.
  - now apply getTemplateContext_other.
Qed.

Lemma getTemplateContext_env_overridden_witness :
  getTemplateContext {[ "HOME" := "/root" ]} (Some echo_context)
  = echo_context.
Proof.
  apply (getTemplateContext_env_overridden {[ "HOME" := "/root" ]}
           echo_context).
  vm_compute. eauto.
Defined.



(** X13: a path in which the part [env] does not occur resolves in the
    built context as it does in the extra context alone. *)
Theorem getTemplateContext_resolves_extra (process_env : gmap string string)
    (extraContext : TemplateStringContext) (parts : list string) :
  "env" ∉ parts ->
  genericResolver (getTemplateContext process_env (Some extraContext)) parts
  = genericResolver extraContext parts.
Proof.
  intros H. unfold genericResolver. apply resolve_loop_local.
  intros key Hin. apply getTemplateContext_other. now intros ->.
Qed.

Lemma getTemplateContext_resolves_extra_witness :
  genericResolver
    (getTemplateContext {[ "HOME" := "/root" ]} (Some falsy_context))
    ["a"; "b"]
  = genericResolver falsy_context ["a"; "b"].
Proof.
  apply (getTemplateContext_resolves_extra {[ "HOME" := "/root" ]}
           falsy_context ["a"; "b"]).
  intros Hin.
  repeat (apply elem_of_cons in Hin as [Hin|Hin]; [discriminate|]).
  inversion Hin.
Defined.

Lemma getParser_calls_failures (pre : list Loader) :
  forall errs rest m,
    _parser m = None ->
    Forall2 (fun env e => construct env = Throw e) pre errs ->
    getParser_calls (pre ++ rest)%list m
    = (((Throw <$> errs) ++ (getParser_calls rest m).1)%list,
       (getParser_calls rest m).2).
Proof.
  induction pre as [|env pre IH]; intros errs rest m Hm Hf.
  - inversion Hf; subst. simpl. now destruct (getParser_calls rest m).
  - inversion Hf as [|? e ? errs' He Hf']; subst.
    change ((env :: pre) ++ rest)%list with (env :: (pre ++ rest))%list.
    cbn [getParser_calls]. unfold getParser at 1. rewrite Hm, He.
    now rewrite (IH errs' rest m Hm Hf').
Qed.

(** X14: in a process whose first attempts to build the parser fail, each
    failed call throws its own error and keeps nothing; the first attempt
    that succeeds sets the parser, and every later call returns that
    parser whatever its environment offers. *)
Theorem getParser_first_success (pre post : list Loader) (env : Loader)
    (errs : list JsError) (obj : Parser) :
  Forall2 (fun env' e => construct env' = Throw e) pre errs ->
  construct env = Normal obj ->
  getParser_calls (pre ++ env :: post)%list initial_state
  = (((Throw <$> errs) ++
       Normal {| address := 0; object := obj |}
       :: ((fun _ => Normal {| address := 0; object := obj |}) <$> post))%list,
     {| _parser := Some {| address := 0; object := obj |}; built := 1 |}).
Proof.
  intros Hf Hc.
  rewrite (getParser_calls_failures pre errs _ initial_state eq_refl Hf).
  cbn [getParser_calls]. unfold getParser at 1 2. simpl _parser. rewrite Hc.
  cbn iota beta. change (built initial_state) with 0%nat.
  now rewrite (getParser_calls_set post
                 {| _parser := Some {| address := 0; object := obj |};
                    built := 1 |}
                 {| address := 0; object := obj |} eq_refl).
Qed.

Lemma getParser_first_success_witness :
  getParser_calls ([broken_env] ++ precompiled_env :: [broken_env])%list
    initial_state
  = (((Throw <$> [OtherError "Cannot find module 'pegjs'"]) ++
       Normal {| address := 0; object := pegParser |}
       :: ((fun _ => Normal {| address := 0; object := pegParser |})
             <$> [broken_env]))%list,
     {| _parser := Some {| address := 0; object := pegParser |};
        built := 1 |}).
Proof.
  exact (getParser_first_success [broken_env] [broken_env] precompiled_env
           [OtherError "Cannot find module 'pegjs'"] pegParser
           (List.Forall2_cons broken_env
              (OtherError "Cannot find module 'pegjs'") eq_refl
              (List.Forall2_nil _))
           eq_refl).
Defined.
